(** * Anchored block replacement: the patch script of the try-on pipeline

    The program is a short Python script.  It reads one TypeScript file,
    looks for a start anchor with [str.find], looks for an end marker with
    [str.find] from the anchor's offset on, splices a replacement block
    between the two and writes the file back.

    The development has three layers:
    - [PyStr]: Python's [str.find] and slicing on sequences of code points,
      with the index adjustment Python applies to negative and oversized
      indices;
    - [Patch]: the core of the script (find, guard, find, guard, splice) with
      its three literals as parameters, and the script itself, run on a store
      of files in a small state-and-exception monad;
    - the properties of both. *)

From Stdlib Require Import ZArith Ascii String.
From stdpp Require Import gmap strings list fin_maps.

Local Open Scope Z_scope.

(** ** Python strings *)

Module PyStr.

Section str.
Context {A : Type} `{EqDecision A}.

(** [s.startswith(sub)]: the comparison [str.find] makes at one offset. *)
Fixpoint startswith (s sub : list A) : bool :=
  match sub, s with
  | [], _ => true
  | _ :: _, [] => false
  | c :: sub', d :: s' => if decide (c = d) then startswith s' sub' else false
  end.

(** The left-to-right scan of [str.find]: [s] is what is left of the text,
    [i] the offset of its first character. The scan also tries the offset
    just past the last character, where only the empty string matches. *)
Fixpoint scan (s sub : list A) (i : nat) : option nat :=
  if startswith s sub then Some i
  else match s with
       | [] => None
       | _ :: s' => scan s' sub (S i)
       end.

(** A negative index counts from the end and is clamped at 0. *)
Definition adjust_index (len i : Z) : Z :=
  if i <? 0 then Z.max 0 (i + len) else i.

(** [s.find(sub, start)]: the lowest offset [>= start] at which [sub]
    occurs, or [-1]. *)
Definition find (s sub : list A) (start : Z) : Z :=
  let len := Z.of_nat (length s) in
  let st := adjust_index len start in
  if len <? st then -1
  else match scan (drop (Z.to_nat st) s) sub (Z.to_nat st) with
       | Some i => Z.of_nat i
       | None => -1
       end.

(** [s[:stop]] *)
Definition slice_to (s : list A) (stop : Z) : list A :=
  take (Z.to_nat (adjust_index (Z.of_nat (length s)) stop)) s.

(** [s[start:]] *)
Definition slice_from (s : list A) (start : Z) : list A :=
  drop (Z.to_nat (adjust_index (Z.of_nat (length s)) start)) s.

(** [sub] occurs in [s] at offset [o]: [s[o:o+len(sub)] == sub]. *)
Definition occurs_at (s sub : list A) (o : Z) : Prop :=
  0 <= o <= Z.of_nat (length s) /\ sub `prefix_of` drop (Z.to_nat o) s.

(** [o] is the first occurrence of [sub] in [s] at or after [start]. *)
Definition first_from (s sub : list A) (start o : Z) : Prop :=
  start <= o /\ occurs_at s sub o /\
  forall o', start <= o' < o -> ~ occurs_at s sub o'.

End str.

End PyStr.

(** ** The patch script *)

Module Patch.
Import PyStr.

(** A Python [str] is a sequence of Unicode code points. *)
Abbreviation char := N (only parsing).
Abbreviation str := (list N) (only parsing).

(** A literal written with ASCII characters only. *)
Definition lit (s : string) : str :=
  N_of_ascii <$> list_ascii_of_string s.

Definition LF : char := 10%N.
Definition EN_DASH : char := 8211%N.

(** Something written as lines, each one ended by a newline. *)
Definition lines (ls : list str) : str :=
  concat ((fun l => l ++ [LF]) <$> ls).

(** The exceptions the script can end with. [SystemExit] carries the
    string it is raised with; [FileNotFoundError] is what [read_text]
    raises when the file is not there. *)
Inductive exn : Type :=
  | SystemExit (msg : string)
  | FileNotFoundError (p : string).

#[export] Instance exn_eq_dec : EqDecision exn.
Proof. solve_decision. Defined.

(** The two failures of the core, under the names the design gives them. *)
Definition AnchorNotFound : exn := SystemExit "marker not found".
Definition EndMarkerNotFound : exn := SystemExit "end marker not found".

(** *** The core: find, guard, find, guard, splice *)

Section core.
Context {A : Type} `{EqDecision A}.

Definition replace (text old marker replacement : list A) : exn + list A :=
  let start := find text old 0 in
  if start =? -1 then inl AnchorNotFound
  else
    let end_ := find text marker start in
    if end_ =? -1 then inl EndMarkerNotFound
    else inr (slice_to text start ++ replacement ++ slice_from text (end_ + 1)).

(** The algorithm as its description words it: the end-marker search
    starts strictly after the anchor's offset, and the tail is kept from
    the marker's offset on. Used only to compare with [replace]. *)
Definition replace_as_described (text old marker replacement : list A)
  : exn + list A :=
  let start := find text old 0 in
  if start =? -1 then inl AnchorNotFound
  else
    let end_ := find text marker (start + 1) in
    if end_ =? -1 then inl EndMarkerNotFound
    else inr (slice_to text start ++ replacement ++ slice_from text end_).

End core.

(** *** The script as a program on a store of files *)

(** What the script does to the outside, in order. *)
Inductive event : Type :=
  | EvRead (p : string)
  | EvWrite (p : string) (content : str).

Record world : Type := World {
  files : gmap string str;
  trace : list event
}.

(** Computations that read and write files and may raise. *)
Definition M (X : Type) : Type := world -> (exn + X) * world.

#[export] Instance M_ret : MRet M := fun _ x w => (inr x, w).

#[export] Instance M_bind : MBind M := fun _ _ k m w =>
  match m w with
  | (inl e, w') => (inl e, w')
  | (inr x, w') => k x w'
  end.

Definition raise {X : Type} (e : exn) : M X := fun w => (inl e, w).

(** [path.read_text(encoding='utf-8')] *)
Definition read_text (p : string) : M str := fun w =>
  let w' := World (files w) (trace w ++ [EvRead p]) in
  match files w !! p with
  | Some text => (inr text, w')
  | None => (inl (FileNotFoundError p), w')
  end.

(** [path.write_text(text, encoding='utf-8')]: the file is overwritten as a
    whole. *)
Definition write_text (p : string) (text : str) : M unit := fun w =>
  (inr tt, World (<[p := text]> (files w)) (trace w ++ [EvWrite p text])).

(** The script, statement by statement, with its literals as parameters. *)
Definition patch (path : string) (old marker replacement : str) : M unit :=
  text ← read_text path;
  let start := find text old 0 in
  _ ← (if start =? -1 then raise (SystemExit "marker not found") else mret tt);
  let end_ := find text marker start in
  _ ← (if end_ =? -1 then raise (SystemExit "end marker not found") else mret tt);
  let text := slice_to text start ++ replacement ++ slice_from text (end_ + 1) in
  write_text path text.

(** The literals of the script. *)
Definition path : string := "src/lib/tryon/production-tryon-pipeline.ts".

Definition old : str := lit "        if (identitySafe) {".

Definition end_marker : str := LF :: lit "        } else {".

Definition replacement : str := lines [
  lit "        if (pixelCorrectionEnabled) {";
  lit "            // DO NOT TOUCH " ++ [EN_DASH] ++ lit " IDENTITY INVARIANT";
  lit "            // Eyes are read-only biometric pixels copied from Image 1.";
  lit "            const eyeAuthorityRule = 'Eyes are read-only biometric pixels copied from Image 1.'";
  lit "            console.log(`EYE AUTHORITY LOCK: ${eyeAuthorityRule}`)";
  lit "            eyePixelData = await extractEyeRegionPixels(originalImageBuffer)";
  lit "            if (!eyePixelData) {";
  lit "                stages.push({";
  lit "                    stage: 1,";
  lit "                    name: 'Face Pixel Extraction',";
  lit "                    status: 'FAIL',";
  lit "                    timeMs: Date.now() - stage1Start,";
  lit "                    data: { error: 'Eye-region extraction failed' }";
  lit "                })";
  [];
  lit "                return {";
  lit "                    success: false,";
  lit "                    image: '',";
  lit "                    status: 'FAIL',";
  lit "                    warnings: ['Eye-region lock failed. Please use an image with clear visible eyes.'],";
  lit "                    debug: { stages, totalTimeMs: Date.now() - startTime, faceOverwritten: false }";
  lit "                }";
  lit "            }";
  [];
  lit "            stages.push({";
  lit "                stage: 1,";
  lit "                name: 'Face Pixel Extraction',";
  lit "                status: 'PASS',";
  lit "                timeMs: Date.now() - stage1Start,";
  lit "                data: { eyeBox: eyePixelData.box, mode: 'identitySafe-eye-lock' }";
  lit "            })";
  lit "        } else if (identitySafe) {";
  lit "            stages.push({";
  lit "                stage: 1,";
  lit "                name: 'Face Pixel Extraction',";
  lit "                status: 'SKIP',";
  lit "                timeMs: Date.now() - stage1Start,";
  lit "                data: { reason: 'pixel correction disabled for nano-banana-pro' }";
  lit "            })";
  lit "        }"
].

Definition main : M unit := patch path old end_marker replacement.

(** How the process ends: exit status and what goes to standard error. A
    [SystemExit] raised with a string prints the string and exits with
    status 1; an uncaught exception prints a traceback and exits with
    status 1. *)
Definition exit_status (r : exn + unit) : Z :=
  match r with
  | inr _ => 0
  | inl _ => 1
  end.

Inductive stderr_output : Type :=
  | Silent
  | Message (msg : string)
  | Traceback (e : exn).

Definition stderr (r : exn + unit) : stderr_output :=
  match r with
  | inr _ => Silent
  | inl (SystemExit msg) => Message msg
  | inl e => Traceback e
  end.

(** The writes among a list of events. *)
Definition is_write (ev : event) : bool :=
  match ev with EvWrite _ _ => true | EvRead _ => false end.

Definition writes (evs : list event) : list event := filter is_write evs.

End Patch.

(** ** Properties *)

Import PyStr Patch.

(** *** Searching and slicing *)

Section str_facts.
Context {A : Type} `{EqDecision A}.

Lemma startswith_prefix (s sub : list A) :
  startswith s sub = true <-> sub `prefix_of` s.
Proof.
  revert s. induction sub as [|c sub IH]; intros s; simpl.
  - destruct s; (split; [intros _; apply prefix_nil | reflexivity]).
  - destruct s as [|d s]; simpl.
    + split; [done | intros Hp; by apply prefix_nil_not in Hp].
    + destruct (decide (c = d)) as [->|Hne].
      * rewrite IH. split; [apply prefix_cons | apply prefix_cons_inv_2].
      * split; [done | intros Hp; by apply prefix_cons_inv_1 in Hp].
Qed.

Lemma startswith_false (s sub : list A) :
  startswith s sub = false <-> ~ sub `prefix_of` s.
Proof.
  rewrite <- startswith_prefix. destruct (startswith s sub); naive_solver.
Qed.

Lemma scan_eq (s sub : list A) (i : nat) :
  scan s sub i =
  if startswith s sub then Some i
  else match s with [] => None | _ :: s' => scan s' sub (S i) end.
Proof. by destruct s. Qed.

(** What a successful scan returns. *)
Lemma scan_Some (s sub : list A) (i j : nat) :
  scan s sub i = Some j ->
  exists k : nat, j = (i + k)%nat /\ (k <= length s)%nat /\
    sub `prefix_of` drop k s /\
    forall k' : nat, (k' < k)%nat -> ~ sub `prefix_of` drop k' s.
Proof.
  revert i. induction s as [|d s IH]; intros i; rewrite scan_eq.
  - destruct (startswith [] sub) eqn:E; [|done].
    intros [= <-]. exists 0%nat. simpl.
    apply startswith_prefix in E. repeat split; [lia | lia | done | lia].
  - destruct (startswith (d :: s) sub) eqn:E.
    + intros [= <-]. exists 0%nat. simpl.
      apply startswith_prefix in E. repeat split; [lia | lia | done | lia].
    + intros Hs. apply IH in Hs as (k & -> & Hk & Hp & Hmin).
      exists (S k). simpl. repeat split; [lia | lia | done |].
      intros [|k'] Hlt; simpl.
      * by apply startswith_false.
      * apply Hmin. lia.
Qed.

(** What a failed scan has excluded. *)
Lemma scan_None (s sub : list A) (i : nat) :
  scan s sub i = None ->
  forall k : nat, (k <= length s)%nat -> ~ sub `prefix_of` drop k s.
Proof.
  revert i. induction s as [|d s IH]; intros i; rewrite scan_eq.
  - destruct (startswith [] sub) eqn:E; [done|].
    intros _ k Hk. apply startswith_false in E. by rewrite drop_nil.
  - destruct (startswith (d :: s) sub) eqn:E; [done|].
    intros Hs [|k] Hk; simpl.
    + by apply startswith_false.
    + eapply IH; [exact Hs | simpl in Hk; lia].
Qed.

(** The scan is total: it finds the first match whenever there is one. *)
Lemma scan_complete (s sub : list A) (i k : nat) :
  (k <= length s)%nat -> sub `prefix_of` drop k s ->
  exists j, scan s sub i = Some j.
Proof.
  intros Hk Hp. destruct (scan s sub i) eqn:E; [eauto|].
  by eapply scan_None in E.
Qed.

Lemma adjust_index_nonneg (len i : Z) : 0 <= i -> adjust_index len i = i.
Proof. unfold adjust_index. intros Hi. destruct (Z.ltb_spec i 0); [lia|done]. Qed.

(** [find] returns [-1] or an offset of the text. *)
Lemma find_range (s sub : list A) (start : Z) :
  0 <= start ->
  find s sub start = -1 \/ start <= find s sub start <= Z.of_nat (length s).
Proof.
  intros Hst. unfold find. rewrite adjust_index_nonneg by done.
  destruct (Z.ltb_spec (Z.of_nat (length s)) start) as [Hlt|Hle]; [by left|].
  destruct (scan _ _ _) as [j|] eqn:E; [right | by left].
  apply scan_Some in E as (k & -> & Hk & _). rewrite length_drop in Hk. lia.
Qed.

(** A successful [find] returns the first occurrence from [start] on. *)
Lemma find_found (s sub : list A) (start e : Z) :
  0 <= start -> find s sub start = e -> e <> -1 -> first_from s sub start e.
Proof.
  intros Hst Hf Hne. unfold find in Hf. rewrite adjust_index_nonneg in Hf by done.
  destruct (Z.ltb_spec (Z.of_nat (length s)) start) as [Hlt|Hle]; [congruence|].
  destruct (scan _ _ _) as [j|] eqn:E; [|congruence]. subst e.
  apply scan_Some in E as (k & -> & Hk & Hp & Hmin).
  rewrite length_drop in Hk. rewrite drop_drop in Hp.
  split; [lia|]. split.
  - split; [lia|]. by rewrite Nat2Z.id.
  - intros o' Ho' [_ Hp']. apply (Hmin (Z.to_nat o' - Z.to_nat start)%nat); [lia|].
    rewrite drop_drop.
    by replace (Z.to_nat start + (Z.to_nat o' - Z.to_nat start))%nat
      with (Z.to_nat o') by lia.
Qed.

(** A failed [find] means there is no occurrence from [start] on. *)
Lemma find_not_found (s sub : list A) (start : Z) :
  0 <= start -> find s sub start = -1 ->
  forall o, start <= o -> ~ occurs_at s sub o.
Proof.
  intros Hst Hf o Ho [[_ Hlen] Hp]. unfold find in Hf.
  rewrite adjust_index_nonneg in Hf by done.
  destruct (Z.ltb_spec (Z.of_nat (length s)) start) as [Hlt|Hle]; [lia|].
  destruct (scan _ _ _) as [j|] eqn:E; [lia|].
  apply (scan_None _ _ _ E (Z.to_nat o - Z.to_nat start)%nat).
  - rewrite length_drop. lia.
  - rewrite drop_drop.
    by replace (Z.to_nat start + (Z.to_nat o - Z.to_nat start))%nat
      with (Z.to_nat o) by lia.
Qed.

(** [find] is complete: the first occurrence from [start] on is returned. *)
Lemma find_first (s sub : list A) (start o : Z) :
  0 <= start -> first_from s sub start o -> find s sub start = o.
Proof.
  intros Hst (Hle & Hocc & Hmin).
  destruct (decide (find s sub start = -1)) as [Hf|Hf].
  - by destruct (find_not_found _ _ _ Hst Hf o Hle).
  - destruct (find_found s sub start _ Hst eq_refl Hf) as (Hle' & Hocc' & Hmin').
    destruct (Z.lt_trichotomy (find s sub start) o) as [Hlt|[Heq|Hgt]]; [|done|].
    + destruct (Hmin (find s sub start)); [lia | done].
    + destruct (Hmin' o); [lia | done].
Qed.

(** Slices with indices inside the text are [take] and [drop]. *)
Lemma slice_to_take (s : list A) (stop : Z) :
  0 <= stop -> slice_to s stop = take (Z.to_nat stop) s.
Proof. intros Hs. unfold slice_to. by rewrite adjust_index_nonneg. Qed.

Lemma slice_from_drop (s : list A) (start : Z) :
  0 <= start -> slice_from s start = drop (Z.to_nat start) s.
Proof. intros Hs. unfold slice_from. by rewrite adjust_index_nonneg. Qed.

(** An occurrence splits the text. *)
Lemma occurs_at_split (s sub : list A) (o : Z) :
  occurs_at s sub o ->
  exists rest, s = take (Z.to_nat o) s ++ sub ++ rest /\
               drop (Z.to_nat o) s = sub ++ rest.
Proof.
  intros [_ [rest Hr]]. exists rest. split; [|done].
  by rewrite <- Hr, take_drop.
Qed.

End str_facts.

(** *** The core in terms of offsets *)

Section replace_facts.
Context {A : Type} `{EqDecision A}.
Implicit Types text old marker repl out : list A.

(** A successful call, read backwards: both searches succeeded and the
    result is the splice at the offsets they returned. *)
Lemma replace_inr_inv text old marker repl out :
  replace text old marker repl = inr out ->
  find text old 0 <> -1 /\
  find text marker (find text old 0) <> -1 /\
  out = slice_to text (find text old 0) ++ repl ++
        slice_from text (find text marker (find text old 0) + 1).
Proof.
  unfold replace.
  destruct (Z.eqb_spec (find text old 0) (-1)) as [|Hs]; [done|].
  destruct (Z.eqb_spec (find text marker (find text old 0)) (-1)) as [|He];
    [done|].
  by intros [= <-].
Qed.

(** The offsets of a successful call lie inside the text, in order. *)
Lemma offsets_ordered text old marker :
  find text old 0 <> -1 ->
  find text marker (find text old 0) <> -1 ->
  0 <= find text old 0 /\
  find text old 0 <= find text marker (find text old 0) /\
  find text marker (find text old 0) <= Z.of_nat (length text).
Proof.
  intros Hs He.
  destruct (find_range text old 0) as [|[Hs0 _]]; [lia | done |].
  destruct (find_range text marker (find text old 0)) as [|[? ?]]; [lia | done |].
  lia.
Qed.

(** A successful call, read forwards, with the slices as [take] and [drop]. *)
Lemma replace_ok text old marker repl (s e : Z) :
  find text old 0 = s -> s <> -1 ->
  find text marker s = e -> e <> -1 ->
  replace text old marker repl =
    inr (take (Z.to_nat s) text ++ repl ++ drop (S (Z.to_nat e)) text).
Proof.
  intros Hs Hs1 He He1. unfold replace. rewrite Hs.
  destruct (Z.eqb_spec s (-1)) as [|_]; [done|]. rewrite He.
  destruct (Z.eqb_spec e (-1)) as [|_]; [done|].
  destruct (offsets_ordered text old marker) as (H0 & H1 & H2);
    [congruence | rewrite Hs; congruence |].
  rewrite Hs, He in *.
  rewrite slice_to_take, slice_from_drop by lia.
  by replace (Z.to_nat (e + 1)) with (S (Z.to_nat e)) by lia.
Qed.

(** The anchor search fails exactly when the anchor occurs nowhere. *)
Lemma replace_anchor_not_found text old marker repl :
  replace text old marker repl = inl AnchorNotFound <->
  forall o, ~ occurs_at text old o.
Proof.
  unfold replace. split.
  - destruct (Z.eqb_spec (find text old 0) (-1)) as [Hs|Hs].
    + intros _ o Ho. apply (find_not_found text old 0 ltac:(lia) Hs o); [|done].
      by destruct Ho as [[? _] _].
    + by destruct (_ =? _).
  - intros Hno. destruct (Z.eqb_spec (find text old 0) (-1)) as [Hs|Hs]; [done|].
    destruct (find_found text old 0 _ ltac:(lia) eq_refl Hs) as (_ & Hocc & _).
    by destruct (Hno _ Hocc).
Qed.

(** The end-marker search fails exactly when the anchor is found and the
    marker does not occur at or after the anchor's offset. *)
Lemma replace_end_not_found text old marker repl :
  replace text old marker repl = inl EndMarkerNotFound <->
  exists s, first_from text old 0 s /\
            forall o, s <= o -> ~ occurs_at text marker o.
Proof.
  unfold replace. split.
  - destruct (Z.eqb_spec (find text old 0) (-1)) as [Hs|Hs]; [done|].
    pose proof (find_found text old 0 _ ltac:(lia) eq_refl Hs) as Hf.
    destruct (Z.eqb_spec (find text marker (find text old 0)) (-1)) as [He|He];
      [|done].
    intros _. exists (find text old 0). split; [done|].
    apply find_not_found; [by destruct Hf | done].
  - intros (s & Hf & Hno).
    assert (0 <= s) as Hs0 by (by destruct Hf).
    rewrite (find_first text old 0 s ltac:(lia) Hf).
    destruct (Z.eqb_spec s (-1)) as [|_]; [lia|].
    destruct (Z.eqb_spec (find text marker s) (-1)) as [|He]; [done|].
    destruct (find_found text marker s _ Hs0 eq_refl He) as (Hle & Hocc & _).
    by destruct (Hno _ Hle).
Qed.

(** The core fails in two ways only. *)
Lemma replace_inl_cases text old marker repl (e : exn) :
  replace text old marker repl = inl e ->
  e = AnchorNotFound \/ e = EndMarkerNotFound.
Proof.
  unfold replace.
  destruct (_ =? _); [intros [= <-]; by left|].
  destruct (_ =? _); [intros [= <-]; by right|done].
Qed.

End replace_facts.

(** *** The script in terms of the core *)

(** Running the script is: read the file, apply [replace], and write the
    result only if [replace] returned one. *)
Lemma patch_runs_replace (p : string) (old marker repl : str) (w : world) :
  patch p old marker repl w =
  match files w !! p with
  | None => (inl (FileNotFoundError p), World (files w) (trace w ++ [EvRead p]))
  | Some text =>
      match replace text old marker repl with
      | inl e => (inl e, World (files w) (trace w ++ [EvRead p]))
      | inr out2 =>
          (inr tt, World (<[p := out2]> (files w))
                         (trace w ++ [EvRead p; EvWrite p out2]))
      end
  end.
Proof.
  unfold patch, replace, mbind, M_bind, read_text, write_text, raise, mret, M_ret.
  destruct (files w !! p) as [text|]; [|done].
  destruct (find text old 0 =? -1); [done|].
  destruct (find text marker (find text old 0) =? -1); [done|].
  simpl. by rewrite <- app_assoc.
Qed.

(** The two literals of the script never occur at the same offset: the
    anchor starts with a space, the end marker with a newline. So for the
    script it makes no difference that the end search includes the
    anchor's own offset. *)
Lemma script_literals_never_coincide (text : str) (o : Z) :
  occurs_at text Patch.old o -> ~ occurs_at text end_marker o.
Proof.
  intros [_ [r1 H1]] [_ [r2 H2]]. rewrite H1 in H2. by vm_compute in H2.
Qed.

(** After the end marker of the script is found at offset [e], the text
    from [e + 1] on starts with a space, so this kept tail does not itself
    start with the end marker. *)
Lemma script_tail_not_marker (text : str) (s e : Z) :
  0 <= s -> find text end_marker s = e -> e <> -1 ->
  ~ end_marker `prefix_of` drop (S (Z.to_nat e)) text.
Proof.
  intros Hs He He1.
  destruct (find_found text end_marker s e Hs He He1) as (_ & [_ [r Hr]] & _).
  apply (f_equal (drop 1)) in Hr. rewrite drop_drop in Hr.
  replace (Z.to_nat e + 1)%nat with (S (Z.to_nat e)) in Hr by lia.
  intros [r' Hr']. rewrite Hr' in Hr. by vm_compute in Hr.
Qed.

(** *** The splice *)

Section splice.
Context {A : Type} `{EqDecision A}.
Implicit Types text old marker repl out : list A.

(** C1, as the code has it. When the anchor is found at offset [s] and the
    end marker at offset [e], the result is
    [text[0..s) ++ repl ++ text[e+1..)]: every character before [s] and every
    character after [e] (not the one at [e]) is unchanged, and what follows
    the spliced block is the rest of the text after offset [e], which starts
    with the end marker less its first character. *)
Theorem replace_splice_locality text old marker repl (s e : Z) :
  find text old 0 = s -> s <> -1 ->
  find text marker s = e -> e <> -1 ->
  exists out,
    replace text old marker repl = inr out /\
    out = take (Z.to_nat s) text ++ repl ++ drop (S (Z.to_nat e)) text /\
    (forall i : nat, (i < Z.to_nat s)%nat -> out !! i = text !! i) /\
    (forall i : nat, (Z.to_nat e < i)%nat ->
       out !! (Z.to_nat s + length repl + (i - S (Z.to_nat e)))%nat = text !! i) /\
    drop (Z.to_nat s + length repl) out = drop (S (Z.to_nat e)) text /\
    (forall c m, marker = c :: m ->
       m `prefix_of` drop (Z.to_nat s + length repl) out).
Proof.
  intros Hs Hs1 He He1. eexists. split; [by apply replace_ok|].
  destruct (offsets_ordered text old marker) as (H0 & H1 & H2);
    [congruence | rewrite Hs; congruence |]. rewrite Hs, He in *.
  assert (length (take (Z.to_nat s) text) = Z.to_nat s) as Hlen
    by (rewrite length_take; lia).
  assert (drop (Z.to_nat s + length repl)
            (take (Z.to_nat s) text ++ repl ++ drop (S (Z.to_nat e)) text)
          = drop (S (Z.to_nat e)) text) as Hdrop.
  { rewrite app_assoc. rewrite drop_app_length'; [done|].
    rewrite length_app. lia. }
  split; [done|]. split; [|split; [|split; [done|]]].
  - intros i Hi. rewrite lookup_app_l by lia. by rewrite lookup_take_lt.
  - intros i Hi. rewrite <- (lookup_drop _ (Z.to_nat s + length repl)).
    rewrite Hdrop, lookup_drop. f_equal. lia.
  - intros c m ->. rewrite Hdrop.
    destruct (find_found text (c :: m) s e H0 He He1) as (_ & [_ [r Hr]] & _).
    exists r. apply (f_equal (drop 1)) in Hr. rewrite drop_drop in Hr.
    by replace (S (Z.to_nat e)) with (Z.to_nat e + 1)%nat by lia.
Qed.

End splice.

Section dropped_character.
Context {A : Type} `{EqDecision A}.
Implicit Types text old marker repl out : list A.

(** Where a non-empty marker is found, the text continues with the marker;
    one character further it continues with the marker less its first
    character. *)
Lemma marker_at_offset text (c : A) (m : list A) (s e : Z) :
  0 <= s -> find text (c :: m) s = e -> e <> -1 ->
  exists rest, drop (Z.to_nat e) text = c :: m ++ rest /\
               drop (S (Z.to_nat e)) text = m ++ rest /\
               text !! Z.to_nat e = Some c /\
               (Z.to_nat e < length text)%nat.
Proof.
  intros Hs He He1.
  destruct (find_found text (c :: m) s e Hs He He1) as (_ & [_ [r Hr]] & _).
  exists r. split; [done|].
  assert (text !! Z.to_nat e = Some c) as Hc.
  { rewrite <- (Nat.add_0_r (Z.to_nat e)), <- lookup_drop. by rewrite Hr. }
  split; [|split; [done | by eapply lookup_lt_Some]].
  apply (f_equal (drop 1)) in Hr. rewrite drop_drop in Hr.
  by replace (S (Z.to_nat e)) with (Z.to_nat e + 1)%nat by lia.
Qed.

(** C2, as the code has it. The result is
    [text[0..s) ++ repl ++ text[e+1..)]. For a non-empty marker exactly one
    character is left out of the kept tail: the one at offset [e], the first
    character of the marker. The tail therefore starts with the rest of the
    marker. The marker still shows up in the output when the replacement ends
    with that same character: it then starts at the replacement's last
    character. *)
Theorem replace_drops_one_character text old marker repl (s e : Z) :
  find text old 0 = s -> s <> -1 ->
  find text marker s = e -> e <> -1 ->
  let out := take (Z.to_nat s) text ++ repl ++ drop (S (Z.to_nat e)) text in
  replace text old marker repl = inr out /\
  forall c m, marker = c :: m ->
    text !! Z.to_nat e = Some c /\
    (exists rest, drop (Z.to_nat e) text = marker ++ rest /\
                  drop (S (Z.to_nat e)) text = m ++ rest) /\
    (length out + (Z.to_nat e - Z.to_nat s) + 1 = length text + length repl)%nat /\
    forall r, repl = r ++ [c] ->
      occurs_at out marker (s + Z.of_nat (length r)).
Proof.
  intros Hs Hs1 He He1 out. split; [by apply replace_ok|].
  intros c m ->.
  destruct (offsets_ordered text old (c :: m)) as (H0 & H1 & H2);
    [congruence | rewrite Hs; congruence |]. rewrite Hs, He in *.
  destruct (marker_at_offset text c m s e H0 He He1) as (rest & Hd & Hd' & Hc & Hlt).
  split; [done|]. split; [by exists rest|]. split.
  - unfold out. rewrite !length_app, length_take, length_drop. lia.
  - intros r ->. unfold out. split.
    + rewrite !length_app, length_take, length_drop. simpl. lia.
    + exists rest. rewrite Hd'.
      replace (Z.to_nat (s + Z.of_nat (length r)))
        with (length (take (Z.to_nat s) text ++ r)).
      * rewrite <- (app_assoc r), (app_assoc (take _ _) r).
        by rewrite drop_app_length.
      * rewrite length_app, length_take. lia.
Qed.

End dropped_character.

Lemma replace_drops_one_character_witness :
  replace (lit "a[b]c") (lit "[") (lit "]") (lit "X]") = inr (lit "aX]c") /\
  occurs_at (lit "aX]c") (lit "]") 2.
Proof.
  destruct (replace_drops_one_character
              (lit "a[b]c") (lit "[") (lit "]") (lit "X]") 1 3)
    as [Hout Hrest]; [reflexivity | lia | reflexivity | lia |].
  split; [exact Hout|].
  destruct (Hrest 93%N [] eq_refl) as (_ & _ & _ & Hocc).
  exact (Hocc (lit "X") eq_refl).
Defined.

(** C2 as stated fails on the script itself: its replacement ends with a
    newline and its end marker starts with one, so the end marker does occur
    in what the script writes, from the replacement's last character on.
    It also occurs right after the block when the text repeats the marker's
    first character, as in the last line. *)
Lemma main_output_has_end_marker_counterexample :
  let text := lit "AAA" ++ Patch.old ++ lit "zzz" ++ end_marker ++ lit "BBB" in
  let w := World {[ path := text ]} [] in
  exists out,
    files (main w).2 !! path = Some out /\
    out = lit "AAA" ++ replacement ++ lit "        } else {BBB" /\
    find out end_marker 0 = 1688 /\
    slice_from (slice_to out (1688 + 17)) 1688 = end_marker /\
    replace (lit "a[]]c") (lit "[") (lit "]") (lit "R") = inr (lit "aR]c").
Proof. eexists. repeat split; vm_compute; reflexivity. Qed.

(** C1 as stated fails: the tail is kept from offset [e + 1], not from [e],
    so the marker's first character is gone. *)
Lemma replace_tail_from_end_offset_counterexample :
  let text := lit "a[b]c" in
  find text (lit "[") 0 = 1 /\
  find text (lit "]") 1 = 3 /\
  replace text (lit "[") (lit "]") (lit "X") = inr (lit "aXc") /\
  replace text (lit "[") (lit "]") (lit "X")
    <> inr (slice_to text 1 ++ lit "X" ++ slice_from text 3) /\
  slice_to text 1 ++ lit "X" ++ slice_from text 3 = lit "aX]c".
Proof. repeat split; try (vm_compute; reflexivity). by vm_compute. Qed.

Lemma replace_splice_locality_witness :
  exists out,
    replace (lit "a[b]c") (lit "[") (lit "]") (lit "X") = inr out /\
    out = lit "aXc".
Proof.
  destruct (replace_splice_locality
              (lit "a[b]c") (lit "[") (lit "]") (lit "X") 1 3)
    as (out & Hout & Heq & _); [reflexivity | lia | reflexivity | lia |].
  exists out. split; [exact Hout | exact Heq].
Defined.

(** *** Where the end search starts *)

Section end_search.
Context {A : Type} `{EqDecision A}.
Implicit Types text old marker repl out : list A.

(** C3, as the code has it. The end search starts at the anchor's offset,
    that offset included. The call fails with [EndMarkerNotFound] exactly
    when the anchor is found and the marker has no occurrence at or after the
    anchor's offset; a marker occurring at the anchor's very offset is the
    one that bounds the region. *)
Theorem end_search_includes_anchor_offset text old marker repl :
  (replace text old marker repl = inl EndMarkerNotFound <->
   exists s, first_from text old 0 s /\
             forall o, s <= o -> ~ occurs_at text marker o) /\
  (forall s, first_from text old 0 s -> occurs_at text marker s ->
     find text marker (find text old 0) = s /\
     replace text old marker repl =
       inr (take (Z.to_nat s) text ++ repl ++ drop (S (Z.to_nat s)) text)).
Proof.
  split; [apply replace_end_not_found|].
  intros s Hf Hocc.
  assert (0 <= s) as Hs0 by (by destruct Hf).
  pose proof (find_first text old 0 s ltac:(lia) Hf) as Hs.
  assert (find text marker s = s) as He.
  { apply find_first; [done|]. split; [lia|]. split; [done|]. lia. }
  rewrite Hs. split; [done|]. apply replace_ok; try done; lia.
Qed.

End end_search.

Lemma end_search_includes_anchor_offset_witness :
  replace (lit "abXab") (lit "ab") (lit "a") (lit "R") = inr (lit "RbXab").
Proof.
  destruct (end_search_includes_anchor_offset
              (lit "abXab") (lit "ab") (lit "a") (lit "R")) as [_ Hat].
  refine (proj2 (Hat 0 _ _)).
  - split; [lia|]. split; [|lia].
    split; [simpl; lia|]. by exists (lit "Xab").
  - split; [simpl; lia|]. by exists (lit "bXab").
Defined.

(** C3 as stated fails: here the marker occurs at the anchor's own offset 0
    and again at offset 3. The code takes offset 0 as the end of the region;
    a search strictly after the anchor's offset would have taken 3. *)
Lemma end_search_strictly_after_counterexample :
  let text := lit "abXab" in
  find text (lit "ab") 0 = 0 /\
  find text (lit "a") (find text (lit "ab") 0) = 0 /\
  find text (lit "a") (find text (lit "ab") 0 + 1) = 3 /\
  replace text (lit "ab") (lit "a") (lit "R") = inr (lit "RbXab") /\
  replace_as_described text (lit "ab") (lit "a") (lit "R") = inr (lit "Rab") /\
  replace text (lit "ab") (lit "a") (lit "R")
    <> replace_as_described text (lit "ab") (lit "a") (lit "R").
Proof. repeat split; try (vm_compute; reflexivity). by vm_compute. Qed.

(** *** The two worked examples *)

(** C4, as the code has it: the first anchor is at offset 1, the end marker
    at offset 21, and the tail is kept from offset 22, so the result is
    [X<END>>Y]. *)
Theorem example_two_anchors :
  replace (lit "X<<START>>a<<START>>b<<END>>Y") (lit "<<START>>")
          (lit "<<END>>") [] = inr (lit "X<END>>Y").
Proof. vm_compute. reflexivity. Qed.

(** C4 as stated fails: the result is not [X<<END>>Y]. *)
Lemma example_two_anchors_counterexample :
  find (lit "X<<START>>a<<START>>b<<END>>Y") (lit "<<START>>") 0 = 1 /\
  find (lit "X<<START>>a<<START>>b<<END>>Y") (lit "<<END>>") 1 = 21 /\
  replace (lit "X<<START>>a<<START>>b<<END>>Y") (lit "<<START>>")
          (lit "<<END>>") [] <> inr (lit "X<<END>>Y").
Proof. repeat split; try (vm_compute; reflexivity). by vm_compute. Qed.

(** C5, as the code has it: the region starts at the anchor's own offset 3,
    so the anchor goes with it, and the tail is kept from offset 16, one
    past the end marker's offset 15. The result is [abcnew<END>>xyz]. *)
Theorem example_single_region :
  replace (lit "abc<<START>>old<<END>>xyz") (lit "<<START>>")
          (lit "<<END>>") (lit "new") = inr (lit "abcnew<END>>xyz").
Proof. vm_compute. reflexivity. Qed.

(** C5 as stated fails: the result is not [abc<<START>>new<<END>>xyz]. *)
Lemma example_single_region_counterexample :
  find (lit "abc<<START>>old<<END>>xyz") (lit "<<START>>") 0 = 3 /\
  find (lit "abc<<START>>old<<END>>xyz") (lit "<<END>>") 3 = 15 /\
  replace (lit "abc<<START>>old<<END>>xyz") (lit "<<START>>")
          (lit "<<END>>") (lit "new") <> inr (lit "abc<<START>>new<<END>>xyz").
Proof. repeat split; try (vm_compute; reflexivity). by vm_compute. Qed.

(** *** First match *)

Section first_match.
Context {A : Type} `{EqDecision A}.
Implicit Types text old marker repl out : list A.

(** The region starts at the first occurrence of the anchor, whatever the
    marker and the replacement are. *)
Lemma replace_starts_at_first text old marker repl (o1 : Z) out :
  first_from text old 0 o1 ->
  replace text old marker repl = inr out ->
  exists tail, out = take (Z.to_nat o1) text ++ repl ++ tail /\
               tail `suffix_of` drop (Z.to_nat o1) text.
Proof.
  intros Hf Hr.
  assert (0 <= o1) as H0 by (by destruct Hf).
  pose proof (find_first text old 0 o1 ltac:(lia) Hf) as Hs.
  apply replace_inr_inv in Hr as (Hs1 & He1 & ->).
  destruct (offsets_ordered text old marker Hs1 He1) as (_ & Hle & Hlen).
  rewrite Hs in *. rewrite slice_to_take, slice_from_drop by lia.
  eexists. split; [done|].
  set (e := find text marker o1) in *.
  replace (Z.to_nat (e + 1)) with (Z.to_nat o1 + (Z.to_nat (e + 1) - Z.to_nat o1))%nat
    by lia.
  rewrite <- drop_drop. apply suffix_drop.
Qed.

(** C6. With the anchor at [o1 < o2] and [o1] its first occurrence, the
    anchor search returns [o1], and every successful call, whatever the
    marker and the replacement, returns [text[0..o1)] followed by the
    replacement followed by a final part of the text after [o1]. *)
Theorem first_anchor_occurrence_starts_region text old (o1 o2 : Z) :
  first_from text old 0 o1 -> occurs_at text old o2 -> o1 < o2 ->
  find text old 0 = o1 /\
  forall marker repl out,
    replace text old marker repl = inr out ->
    take (Z.to_nat o1) out = take (Z.to_nat o1) text /\
    exists tail, out = take (Z.to_nat o1) text ++ repl ++ tail /\
                 tail `suffix_of` drop (Z.to_nat o1) text.
Proof.
  intros Hf Hocc Hlt. split; [apply find_first; [lia | done]|].
  intros marker repl out Hr.
  destruct (replace_starts_at_first _ _ _ _ _ _ Hf Hr) as (tail & -> & Hsuf).
  split; [|by exists tail].
  destruct Hf as (H0 & [[_ Hlen] _] & _).
  rewrite take_app_le by (rewrite length_take; lia).
  rewrite take_take. f_equal. lia.
Qed.

End first_match.

Lemma first_anchor_occurrence_starts_region_witness :
  find (lit "X<<START>>a<<START>>b<<END>>Y") (lit "<<START>>") 0 = 1 /\
  take 1 (lit "X<END>>Y") = take 1 (lit "X<<START>>a<<START>>b<<END>>Y").
Proof.
  destruct (first_anchor_occurrence_starts_region
              (lit "X<<START>>a<<START>>b<<END>>Y") (lit "<<START>>") 1 11)
    as [Hfind Hout].
  - apply find_found; [lia | reflexivity | lia].
  - split; [simpl; lia|]. by exists (lit "b<<END>>Y").
  - lia.
  - split; [exact Hfind|].
    exact (proj1 (Hout (lit "<<END>>") [] (lit "X<END>>Y") eq_refl)).
Defined.

(** *** The script: failures, exit and writes *)

Lemma writes_app_read (t : list event) (p : string) :
  writes (t ++ [EvRead p]) = writes t.
Proof.
  unfold writes. rewrite filter_app.
  rewrite filter_cons_False by (simpl; tauto).
  by rewrite filter_nil, app_nil_r.
Qed.

(** C7. Every run of the script either fails, and then the files are as
    they were and no write has happened, or succeeds, and then exactly one
    write has happened, of the complete text [replace] returned, after the
    single read. *)
Theorem failure_writes_nothing (p : string) (old marker repl : str) (w : world) :
  match patch p old marker repl w with
  | (inl e, w') =>
      files w' = files w /\
      trace w' = trace w ++ [EvRead p] /\
      writes (trace w') = writes (trace w) /\
      match files w !! p with
      | None => e = FileNotFoundError p
      | Some text =>
          replace text old marker repl = inl e /\
          (e = AnchorNotFound \/ e = EndMarkerNotFound)
      end
  | (inr _, w') =>
      exists text out,
        files w !! p = Some text /\
        replace text old marker repl = inr out /\
        files w' = <[p := out]> (files w) /\
        trace w' = trace w ++ [EvRead p; EvWrite p out]
  end.
Proof.
  rewrite patch_runs_replace.
  destruct (files w !! p) as [text|] eqn:Hp;
    [destruct (replace text old marker repl) as [e|out] eqn:Hr|];
    simpl; rewrite ?writes_app_read.
  - split_and!; try done. apply replace_inl_cases in Hr. tauto.
  - by exists text, out.
  - done.
Qed.

(** C8. With the file read as [text]: if the anchor occurs nowhere, the core
    fails with [AnchorNotFound] whatever the end marker is, and the process
    ends with status 1 and the message [marker not found], the files
    unchanged and nothing written; if the anchor is found and no end marker
    follows, the same with the message [end marker not found]; the two
    messages differ. On success the process ends with status 0, silent, and
    the write of the result is the last thing that happened. *)
Theorem anchor_absent_exits_nonzero
    (p : string) (old marker repl : str) (w : world) (text : str) :
  files w !! p = Some text ->
  let r := patch p old marker repl w in
  ((forall o, ~ occurs_at text old o) ->
     replace text old marker repl = inl AnchorNotFound /\
     r.1 = inl (SystemExit "marker not found") /\
     exit_status r.1 = 1 /\ stderr r.1 = Message "marker not found" /\
     files r.2 = files w /\ writes (trace r.2) = writes (trace w)) /\
  ((exists s, first_from text old 0 s /\
              forall o, s <= o -> ~ occurs_at text marker o) ->
     replace text old marker repl = inl EndMarkerNotFound /\
     r.1 = inl (SystemExit "end marker not found") /\
     exit_status r.1 = 1 /\ stderr r.1 = Message "end marker not found" /\
     files r.2 = files w /\ writes (trace r.2) = writes (trace w)) /\
  (forall out, replace text old marker repl = inr out ->
     r.1 = inr tt /\ exit_status r.1 = 0 /\ stderr r.1 = Silent /\
     last (trace r.2) = Some (EvWrite p out) /\
     files r.2 !! p = Some out) /\
  AnchorNotFound <> EndMarkerNotFound.
Proof.
  intros Hp r. unfold r. rewrite patch_runs_replace, Hp.
  split_and!; [| | |done].
  - intros Hno. apply (replace_anchor_not_found text old marker repl) in Hno.
    rewrite Hno. simpl. by rewrite writes_app_read.
  - intros Hno. apply (replace_end_not_found text old marker repl) in Hno.
    rewrite Hno. simpl. by rewrite writes_app_read.
  - intros out ->. simpl. split_and!; try done.
    + by rewrite last_app.
    + by rewrite lookup_insert_eq.
Qed.

Lemma anchor_absent_exits_nonzero_witness :
  let w := World {[ path := lit "no anchors here" ]} [] in
  exit_status (main w).1 = 1 /\
  stderr (main w).1 = Message "marker not found" /\
  files (main w).2 = files w.
Proof.
  intros w.
  destruct (anchor_absent_exits_nonzero path Patch.old end_marker replacement
              w (lit "no anchors here")) as [Habs _]; [reflexivity|].
  destruct Habs as (_ & _ & Hexit & Herr & Hfiles & _).
  - assert (find (lit "no anchors here") Patch.old 0 = -1) as Hf
      by reflexivity.
    intros o Hocc.
    apply (find_not_found (lit "no anchors here") Patch.old 0
             ltac:(lia) Hf o); [by destruct Hocc as [[? _] _] | exact Hocc].
  - split; [exact Hexit | split; [exact Herr | exact Hfiles]].
Defined.

(** *** Determinism *)

(** C9. What a run does depends on the text of the file and the three
    literals, and on nothing else: not on the other files, not on what
    happened before. Two runs from worlds that hold the same text under the
    path end the same way, leave the same text under the path and do the
    same reads and writes; outcome and text left are the ones [replace]
    gives on the four inputs. *)
Theorem patch_depends_only_on_inputs
    (p : string) (old marker repl : str) (w1 w2 : world) :
  files w1 !! p = files w2 !! p ->
  let r1 := patch p old marker repl w1 in
  let r2 := patch p old marker repl w2 in
  r1.1 = r2.1 /\
  files r1.2 !! p = files r2.2 !! p /\
  (exists evs, trace r1.2 = trace w1 ++ evs /\ trace r2.2 = trace w2 ++ evs) /\
  (forall text, files w1 !! p = Some text ->
     r1.1 = match replace text old marker repl with
            | inl e => inl e
            | inr _ => inr tt
            end /\
     files r1.2 !! p = match replace text old marker repl with
                       | inl _ => Some text
                       | inr out => Some out
                       end).
Proof.
  intros Heq r1 r2. unfold r1, r2. rewrite !patch_runs_replace, <- Heq.
  destruct (files w1 !! p) as [text|] eqn:Hp.
  - destruct (replace text old marker repl) as [e|out] eqn:Hr; simpl.
    + split_and!; [done | congruence | by eexists |].
      intros ? [= <-]. by rewrite Hr.
    + rewrite !lookup_insert_eq. split_and!; [done | done | by eexists |].
      intros ? [= <-]. by rewrite Hr.
  - simpl. split_and!; [done | congruence | by eexists | done].
Qed.

Lemma patch_depends_only_on_inputs_witness :
  let text := lit "AAA" ++ Patch.old ++ lit "zzz" ++ end_marker ++ lit "BBB" in
  let w1 := World {[ path := text ]} [] in
  let w2 := World (<[ "notes.txt"%string := lit "x" ]> {[ path := text ]})
                  [EvRead "notes.txt"; EvWrite "notes.txt" (lit "x")] in
  (main w1).1 = (main w2).1 /\
  files (main w1).2 !! path = files (main w2).2 !! path.
Proof.
  intros text w1 w2.
  destruct (patch_depends_only_on_inputs path Patch.old end_marker replacement
              w1 w2) as (Hout & Hfile & _); [reflexivity|].
  split; [exact Hout | exact Hfile].
Defined.

(** *** Offsets of a successful call *)

Section offsets.
Context {A : Type} `{EqDecision A}.
Implicit Types text old marker repl out : list A.

(** C10. On success, with [s] the anchor's offset and [e] the end marker's:
    [0 <= s <= e <= len(text)]. So neither slice index is negative, the
    slices are plain [take] and [drop], the three parts have the lengths one
    expects, and an occurrence of the marker before [s] is not the one that
    bounds the region. *)
Theorem end_offset_not_before_start text old marker repl out :
  replace text old marker repl = inr out ->
  let s := find text old 0 in
  let e := find text marker s in
  0 <= s /\ s <= e /\ e <= Z.of_nat (length text) /\
  first_from text marker s e /\
  slice_to text s = take (Z.to_nat s) text /\
  slice_from text (e + 1) = drop (S (Z.to_nat e)) text /\
  out = take (Z.to_nat s) text ++ repl ++ drop (S (Z.to_nat e)) text /\
  length out =
    (Z.to_nat s + length repl + (length text - S (Z.to_nat e)))%nat /\
  forall o, occurs_at text marker o -> o < s -> o <> e.
Proof.
  intros Hr s e. apply replace_inr_inv in Hr as (Hs1 & He1 & ->).
  destruct (offsets_ordered text old marker Hs1 He1) as (H0 & Hle & Hlen).
  fold s in H0, Hle, Hlen, Hs1, He1. fold e in Hle, Hlen, He1.
  fold s. fold e.
  assert (slice_to text s = take (Z.to_nat s) text) as Hto
    by (by apply slice_to_take).
  assert (slice_from text (e + 1) = drop (S (Z.to_nat e)) text) as Hfrom.
  { rewrite slice_from_drop by lia. f_equal. lia. }
  split_and!; try done.
  - by apply find_found.
  - by rewrite Hto, Hfrom.
  - rewrite Hto, Hfrom, !length_app, length_take, length_drop. lia.
  - lia.
Qed.

End offsets.

Lemma end_offset_not_before_start_witness :
  0 <= find (lit "]a[b]c") (lit "[") 0 /\
  find (lit "]a[b]c") (lit "[") 0
    <= find (lit "]a[b]c") (lit "]") (find (lit "]a[b]c") (lit "[") 0).
Proof.
  destruct (end_offset_not_before_start
              (lit "]a[b]c") (lit "[") (lit "]") (lit "X") (lit "]aXc"))
    as (H0 & Hle & _); [reflexivity|].
  split; [exact H0 | exact Hle].
Defined.

(** ** Further properties of the core and of the script *)

(** *** Outcomes of the core *)

Section outcomes.
Context {A : Type} `{EqDecision A}.
Implicit Types text old marker repl out : list A.

(** An occurrence fits inside the text. *)
Lemma occurs_at_length text (sub : list A) (o : Z) :
  occurs_at text sub o -> o + Z.of_nat (length sub) <= Z.of_nat (length text).
Proof.
  intros [[H0 Hlen] Hp]. apply prefix_length in Hp.
  rewrite length_drop in Hp. lia.
Qed.

(** The core succeeds exactly when both first occurrences exist, and the
    result is then the splice at them. *)
Lemma replace_succeeds_iff text old marker repl out :
  replace text old marker repl = inr out <->
  exists s e, first_from text old 0 s /\ first_from text marker s e /\
    out = take (Z.to_nat s) text ++ repl ++ drop (S (Z.to_nat e)) text.
Proof.
  split.
  - intros Hr. pose proof Hr as Hr'.
    apply replace_inr_inv in Hr' as (Hs1 & He1 & _).
    destruct (offsets_ordered text old marker Hs1 He1) as (H0 & _ & _).
    exists (find text old 0), (find text marker (find text old 0)).
    split; [by apply find_found|]. split; [by apply find_found|].
    rewrite (replace_ok text old marker repl _ _ eq_refl Hs1 eq_refl He1) in Hr.
    by injection Hr as <-.
  - intros (s & e & Hfs & Hfe & ->).
    assert (0 <= s) as H0 by (by destruct Hfs).
    assert (s <= e) as Hle by (by destruct Hfe).
    apply replace_ok; [by apply find_first | lia | by apply find_first | lia].
Qed.

(** The three outcomes of the core, each by what occurs where in the text:
    success when the anchor occurs and the marker occurs at or after the
    anchor's first occurrence; [AnchorNotFound] when the anchor occurs
    nowhere; [EndMarkerNotFound] when the anchor occurs and no marker occurs
    at or after its first occurrence. *)
Theorem replace_outcomes text old marker repl :
  (forall out, replace text old marker repl = inr out <->
     exists s e, first_from text old 0 s /\ first_from text marker s e /\
       out = take (Z.to_nat s) text ++ repl ++ drop (S (Z.to_nat e)) text) /\
  (replace text old marker repl = inl AnchorNotFound <->
     forall o, ~ occurs_at text old o) /\
  (replace text old marker repl = inl EndMarkerNotFound <->
     exists s, first_from text old 0 s /\
               forall o, s <= o -> ~ occurs_at text marker o).
Proof.
  split; [intros out; apply replace_succeeds_iff|].
  split; [apply replace_anchor_not_found | apply replace_end_not_found].
Qed.

(** Both matches of a successful call lie inside the text, and a text
    shorter than the anchor always gives [AnchorNotFound]. *)
Theorem matches_within_text text old marker repl :
  ((length text < length old)%nat ->
     replace text old marker repl = inl AnchorNotFound) /\
  (forall out, replace text old marker repl = inr out ->
     find text old 0 + Z.of_nat (length old) <= Z.of_nat (length text) /\
     find text marker (find text old 0) + Z.of_nat (length marker)
       <= Z.of_nat (length text) /\
     (length old <= length text)%nat /\ (length marker <= length text)%nat).
Proof.
  split.
  - intros Hlt. apply replace_anchor_not_found. intros o Ho.
    pose proof (occurs_at_length _ _ _ Ho) as Hlen. destruct Ho as [[? _] _]. lia.
  - intros out Hr. apply replace_inr_inv in Hr as (Hs1 & He1 & _).
    destruct (offsets_ordered text old marker Hs1 He1) as (H0 & Hle & _).
    destruct (find_found text old 0 _ ltac:(lia) eq_refl Hs1) as (_ & Hos & _).
    destruct (find_found text marker _ _ H0 eq_refl He1) as (_ & Hoe & _).
    apply occurs_at_length in Hos, Hoe. lia.
Qed.

(** When the marker is a prefix of the anchor (the two literals equal, or
    the marker empty, among others), the end search stops at the anchor's own
    offset: the call never fails with [EndMarkerNotFound], and a successful
    call replaces nothing but the character at the anchor's offset. *)
Theorem marker_prefix_of_anchor text old marker repl :
  marker `prefix_of` old ->
  replace text old marker repl <> inl EndMarkerNotFound /\
  forall out, replace text old marker repl = inr out ->
    find text marker (find text old 0) = find text old 0 /\
    out = take (Z.to_nat (find text old 0)) text ++ repl ++
          drop (S (Z.to_nat (find text old 0))) text.
Proof.
  intros Hpre.
  assert (forall s, first_from text old 0 s -> first_from text marker s s) as Hat.
  { intros s (H0 & [Hr Hp] & _). split; [lia|]. split; [|lia].
    split; [done|]. by etrans. }
  split.
  - intros Hr. apply replace_end_not_found in Hr as (s & Hf & Hno).
    destruct (Hat s Hf) as (_ & Hocc & _). by apply (Hno s).
  - intros out Hr. pose proof Hr as Hr'.
    apply replace_inr_inv in Hr' as (Hs1 & _ & _).
    pose proof (find_found text old 0 _ ltac:(lia) eq_refl Hs1) as Hf.
    assert (0 <= find text old 0) as H0 by (by destruct Hf).
    pose proof (find_first text marker _ _ H0 (Hat _ Hf)) as He.
    split; [done|].
    rewrite (replace_ok text old marker repl _ _ eq_refl Hs1 He Hs1) in Hr.
    by injection Hr as <-.
Qed.

End outcomes.

Lemma marker_prefix_of_anchor_witness :
  replace (lit "xaby") (lit "ab") (lit "ab") (lit "R") <> inl EndMarkerNotFound /\
  find (lit "xaby") (lit "ab") (find (lit "xaby") (lit "ab") 0)
    = find (lit "xaby") (lit "ab") 0.
Proof.
  destruct (marker_prefix_of_anchor (lit "xaby") (lit "ab") (lit "ab") (lit "R"))
    as [Hne Hout]; [done|].
  split; [exact Hne|].
  by destruct (Hout (lit "xRby")) as [He _]; [reflexivity|].
Defined.

Lemma matches_within_text_witness :
  replace (lit "ab") (lit "abc") (lit "c") (lit "R") = inl AnchorNotFound.
Proof.
  destruct (matches_within_text (lit "ab") (lit "abc") (lit "c") (lit "R"))
    as [Hshort _].
  apply Hshort. simpl. lia.
Defined.

(** *** The script and the store *)


(** The script touches one file only and never creates or removes one: the
    set of files is the same after the run as before, every other file has
    the content it had, and everything the run adds to the trace is a read
    or a write of its own path, after what was there. *)
Theorem patch_touches_only_its_file
    (p : string) (old marker repl : str) (w : world) :
  dom (files (patch p old marker repl w).2) = dom (files w) /\
  (forall q, q <> p ->
     files (patch p old marker repl w).2 !! q = files w !! q) /\
  exists evs,
    trace (patch p old marker repl w).2 = trace w ++ evs /\
    forall ev, ev ∈ evs -> ev = EvRead p \/ exists t, ev = EvWrite p t.
Proof.
  rewrite patch_runs_replace.
  destruct (files w !! p) as [text|] eqn:Hp;
    [destruct (replace text old marker repl) as [err|out]|]; simpl.
  - split_and!; [done | done |]. exists [EvRead p]. split; [done|].
    intros ev ->%list_elem_of_singleton. by left.
  - split_and!.
    + rewrite dom_insert_L. apply subseteq_union_1_L, singleton_subseteq_l.
      by apply elem_of_dom_2 in Hp.
    + intros q Hq. by rewrite lookup_insert_ne.
    + exists [EvRead p; EvWrite p out]. split; [done|].
      intros ev Hev. apply elem_of_cons in Hev as [->|Hev]; [by left|].
      apply list_elem_of_singleton in Hev as ->. right. by exists out.
  - split_and!; [done | done |]. exists [EvRead p]. split; [done|].
    intros ev ->%list_elem_of_singleton. by left.
Qed.

(** *** Occurrences in a spliced text *)

Section occurrences.
Context {A : Type} `{EqDecision A}.
Implicit Types text old marker repl out sub a b : list A.

Lemma occurs_at_nat text sub (k : nat) :
  occurs_at text sub (Z.of_nat k) <->
  (k <= length text)%nat /\ sub `prefix_of` drop k text.
Proof. unfold occurs_at. rewrite Nat2Z.id. intuition lia. Qed.

Lemma occurs_at_to_nat text sub (o : Z) :
  occurs_at text sub o -> o = Z.of_nat (Z.to_nat o).
Proof. intros [[? _] _]. lia. Qed.

(** A prefix of [a ++ b] no longer than [a] is a prefix of [a]. *)
Lemma prefix_app_short sub a b :
  sub `prefix_of` a ++ b -> (length sub <= length a)%nat -> sub `prefix_of` a.
Proof.
  intros [r Hr] Hlen. apply (f_equal (take (length sub))) in Hr.
  rewrite take_app_le, take_app_length in Hr by done.
  rewrite <- Hr. apply prefix_take.
Qed.

(** A prefix of [a ++ b] at least as long as [a] starts with [a] and goes
    on as a prefix of [b]. *)
Lemma prefix_app_long sub a b :
  sub `prefix_of` a ++ b -> (length a <= length sub)%nat ->
  take (length a) sub = a /\ drop (length a) sub `prefix_of` b.
Proof.
  intros [r Hr] Hlen. split.
  - apply (f_equal (take (length a))) in Hr.
    by rewrite take_app_length, take_app_le in Hr.
  - exists r. apply (f_equal (drop (length a))) in Hr.
    by rewrite drop_app_length, drop_app_le in Hr.
Qed.

(** Where an occurrence in [a ++ b] can lie: inside [a], inside [b], or
    across the seam. *)
Lemma prefix_drop_app sub a b (k : nat) :
  sub `prefix_of` drop k (a ++ b) ->
  ((k + length sub <= length a)%nat /\ sub `prefix_of` drop k a) \/
  ((length a <= k)%nat /\ sub `prefix_of` drop (k - length a) b) \/
  ((k < length a < k + length sub)%nat /\
   take (length a - k) sub = drop k a /\
   drop (length a - k) sub `prefix_of` b).
Proof.
  rewrite drop_app. intros Hp.
  destruct (decide (length a <= k)%nat) as [Hge|Hlt].
  - right; left. split; [done|]. by rewrite drop_ge in Hp.
  - replace (k - length a)%nat with 0%nat in Hp by lia. rewrite drop_0 in Hp.
    destruct (decide (length sub <= length a - k)%nat) as [Hshort|Hlong].
    + left. split; [lia|]. eapply prefix_app_short; [done|].
      rewrite length_drop. lia.
    + right; right. split; [lia|].
      apply prefix_app_long in Hp; [|rewrite length_drop; lia].
      by rewrite length_drop in Hp.
Qed.

(** When the marker's first character does not occur in the anchor, the
    marker is not found before the end of the anchor's occurrence. *)
Lemma end_after_anchor text old (c : A) (m : list A) :
  c ∉ old ->
  find text old 0 <> -1 ->
  find text (c :: m) (find text old 0) <> -1 ->
  find text old 0 + Z.of_nat (length old) <= find text (c :: m) (find text old 0).
Proof.
  intros Hc Hs1 He1.
  destruct (offsets_ordered text old (c :: m) Hs1 He1) as (H0 & Hle & _).
  set (s := find text old 0) in *. set (e := find text (c :: m) s) in *.
  destruct (find_found text old 0 s ltac:(lia) eq_refl Hs1) as (_ & [_ [r Hr]] & _).
  destruct (marker_at_offset text c m s e H0 eq_refl He1) as (_ & _ & _ & Hce & _).
  destruct (Z.le_gt_cases (s + Z.of_nat (length old)) e) as [|Hin]; [done|].
  exfalso. apply Hc.
  apply (list_elem_of_lookup_2 _ (Z.to_nat e - Z.to_nat s)%nat).
  rewrite <- (lookup_app_l old r) by lia. rewrite <- Hr, lookup_drop.
  by replace (Z.to_nat s + (Z.to_nat e - Z.to_nat s))%nat
    with (Z.to_nat e) by lia.
Qed.

(** When the marker's first character does not occur in the anchor, the
    marker cannot start inside the anchor's occurrence: a successful call has
    its end offset at or after the end of the anchor, so the replaced region
    holds the whole anchor, and the end search would find the same offset
    if it started after the anchor. *)
Theorem region_holds_anchor text old marker repl out (c : A) (m : list A) :
  marker = c :: m -> c ∉ old ->
  replace text old marker repl = inr out ->
  find text old 0 + Z.of_nat (length old) <= find text marker (find text old 0) /\
  find text marker (find text old 0 + Z.of_nat (length old))
    = find text marker (find text old 0).
Proof.
  intros -> Hc Hr. apply replace_inr_inv in Hr as (Hs1 & He1 & _).
  destruct (offsets_ordered text old (c :: m) Hs1 He1) as (H0 & Hle & _).
  pose proof (end_after_anchor text old c m Hc Hs1 He1) as Hafter.
  pose proof (find_found text (c :: m) _ _ H0 eq_refl He1) as Hfe.
  split; [done|]. apply find_first; [lia|].
  destruct Hfe as (_ & Hocc & Hmin). split; [done|]. split; [done|].
  intros o' Ho'. apply Hmin. lia.
Qed.

(** The splice when the block ends with the marker's first character and
    that character does not occur in the anchor: the text is
    [pre ++ old ++ mid ++ marker ++ rest], cut at the two offsets found, and
    the result is [pre], the block less its last character, the marker and
    [rest]. *)
Lemma splice_keeps_marker text old marker repl out (c : A) (m r : list A) :
  marker = c :: m -> c ∉ old -> repl = r ++ [c] ->
  replace text old marker repl = inr out ->
  exists pre mid rest,
    text = pre ++ old ++ mid ++ marker ++ rest /\
    Z.of_nat (length pre) = find text old 0 /\
    Z.of_nat (length (pre ++ old ++ mid)) = find text marker (find text old 0) /\
    out = pre ++ r ++ marker ++ rest.
Proof.
  intros -> Hc -> Hr. pose proof Hr as Hr'.
  apply replace_inr_inv in Hr' as (Hs1 & He1 & _).
  destruct (offsets_ordered text old (c :: m) Hs1 He1) as (H0 & Hle & Hlen).
  pose proof (end_after_anchor text old c m Hc Hs1 He1) as Hafter.
  rewrite (replace_ok text old (c :: m) _ _ _ eq_refl Hs1 eq_refl He1) in Hr.
  injection Hr as <-.
  set (s := find text old 0) in *. set (e := find text (c :: m) s) in *.
  destruct (find_found text old 0 s ltac:(lia) eq_refl Hs1) as (_ & [_ [r1 Hr1]] & _).
  destruct (marker_at_offset text c m s e H0 eq_refl He1)
    as (rest & Hd & Hd' & _ & _).
  assert (text = take (Z.to_nat s) text ++ old ++ r1) as Htext
    by (by rewrite <- Hr1, take_drop).
  assert (drop (Z.to_nat e - Z.to_nat s - length old) r1 = c :: m ++ rest) as Hmid.
  { rewrite <- Hd. rewrite Htext at 1. rewrite app_assoc.
    rewrite drop_app_ge by (rewrite length_app, length_take; lia).
    f_equal. rewrite length_app, length_take. lia. }
  exists (take (Z.to_nat s) text),
         (take (Z.to_nat e - Z.to_nat s - length old) r1), rest.
  assert (length (take (Z.to_nat e - Z.to_nat s - length old) r1)
          = (Z.to_nat e - Z.to_nat s - length old)%nat) as Hlmid.
  { rewrite length_take. apply (f_equal length) in Hmid.
    rewrite length_drop in Hmid. simpl in Hmid. lia. }
  split_and!.
  - rewrite Htext at 1. do 2 f_equal.
    change ((c :: m) ++ rest) with (c :: m ++ rest).
    by rewrite <- Hmid, take_drop.
  - rewrite length_take. lia.
  - rewrite !length_app, length_take, Hlmid. lia.
  - rewrite Hd'. rewrite <- !app_assoc. done.
Qed.

(** Where the anchor can occur after a block has been spliced in, when the
    block ends with a character the anchor does not have, the anchor does not
    occur in the block and no proper end of the anchor starts the block:
    before the block, or after it. *)
Lemma block_brings_no_anchor (pre block tail : list A) old (c : A) (r : list A)
    (k : nat) :
  block = r ++ [c] -> c ∉ old -> old <> [] ->
  (length old <= length block)%nat ->
  (forall j : nat, ~ old `prefix_of` drop j block) ->
  (forall j : nat, (0 < j < length old)%nat -> ~ drop j old `prefix_of` block) ->
  old `prefix_of` drop k (pre ++ block ++ tail) ->
  ((k + length old <= length pre)%nat /\ old `prefix_of` drop k pre) \/
  ((length pre + length block <= k)%nat /\
   old `prefix_of` drop (k - length pre - length block) tail).
Proof.
  intros Hblock Hc Hne Hlen Hin Hseam Hp.
  apply prefix_drop_app in Hp as [Hp|[[Hk Hp]|(Hk & _ & Hp)]].
  - by left.
  - apply prefix_drop_app in Hp as [[_ Hp]|[[Hk' Hp]|(Hk' & Heq & _)]].
    + by destruct (Hin _ Hp).
    + right. split; [lia | done].
    + exfalso. apply Hc.
      assert (c ∈ take (length block - (k - length pre)) old) as Hel.
      { rewrite Heq, Hblock, drop_app_le.
        - apply elem_of_app. right. by apply list_elem_of_singleton.
        - rewrite Hblock, length_app in Hk'. simpl in Hk'. lia. }
      by apply (subseteq_take _ _ _ Hel).
  - exfalso. apply (Hseam (length pre - k)%nat); [lia|].
    eapply prefix_app_short; [done|]. rewrite length_drop. lia.
Qed.

End occurrences.

Lemma region_holds_anchor_witness :
  find (lit "a[b]c") (lit "[") 0 + 1
    <= find (lit "a[b]c") (lit "]") (find (lit "a[b]c") (lit "[") 0).
Proof.
  destruct (region_holds_anchor (lit "a[b]c") (lit "[") (lit "]") (lit "X")
              (lit "aXc") 93%N []) as [Hle _].
  - reflexivity.
  - change (lit "[") with [91%N]. by intros ?%list_elem_of_singleton.
  - reflexivity.
  - exact Hle.
Defined.

(** *** Cutting and putting back *)

Section round_trip.
Context {A : Type} `{EqDecision A}.
Implicit Types text old marker repl out : list A.

(** The three slices of a successful call make up the text: the kept head,
    the region cut out (from the anchor's offset up to and including the
    character at the end offset) and the kept tail. Called with that region
    as the replacement, [replace] returns the text unchanged. *)
Theorem replace_region_back text old marker repl out :
  replace text old marker repl = inr out ->
  let s := Z.to_nat (find text old 0) in
  let e := Z.to_nat (find text marker (find text old 0)) in
  let region := take (S e - s) (drop s text) in
  text = take s text ++ region ++ drop (S e) text /\
  replace text old marker region = inr text /\
  (length out + length region = length text + length repl)%nat.
Proof.
  intros Hr s e region. pose proof Hr as Hr'.
  apply replace_inr_inv in Hr' as (Hs1 & He1 & _).
  destruct (offsets_ordered text old marker Hs1 He1) as (H0 & Hle & Hlen).
  assert (text = take s text ++ region ++ drop (S e) text) as Htext.
  { unfold region. rewrite app_assoc, take_take_drop.
    replace (s + (S e - s))%nat with (S e) by (unfold s, e; lia).
    by rewrite take_drop. }
  split; [done|]. split.
  - rewrite (replace_ok text old marker region _ _ eq_refl Hs1 eq_refl He1).
    fold s. fold e. by rewrite <- Htext.
  - rewrite (replace_ok text old marker repl _ _ eq_refl Hs1 eq_refl He1) in Hr.
    apply (inj inr) in Hr. subst out. fold s. fold e.
    apply (f_equal length) in Htext. rewrite !length_app in Htext.
    rewrite !length_app. lia.
Qed.

End round_trip.

Lemma replace_region_back_witness :
  replace (lit "a[b]c") (lit "[") (lit "]") (lit "[b]") = inr (lit "a[b]c").
Proof.
  destruct (replace_region_back (lit "a[b]c") (lit "[") (lit "]") (lit "X")
              (lit "aXc")) as (_ & Hback & _); [reflexivity|].
  exact Hback.
Defined.

(** *** The script on its own literals *)

Lemma old_has_no_newline : LF ∉ Patch.old.
Proof. intros H. apply (bool_decide_pack _) in H. by vm_compute in H. Qed.

Lemma replacement_ends_with_newline :
  replacement = removelast replacement ++ [LF].
Proof. vm_compute. reflexivity. Qed.

Lemma replacement_has_no_anchor (j : nat) :
  ~ Patch.old `prefix_of` drop j replacement.
Proof.
  intros Hp. destruct (decide (j <= length replacement)%nat) as [Hj|Hj].
  - assert (find replacement Patch.old 0 = -1) as Hf by (vm_compute; reflexivity).
    apply (find_not_found replacement Patch.old 0 ltac:(lia) Hf (Z.of_nat j));
      [lia|]. by apply occurs_at_nat.
  - rewrite drop_ge in Hp by lia. by apply prefix_nil_inv in Hp.
Qed.

Lemma no_anchor_end_starts_replacement (j : nat) :
  (0 < j < length Patch.old)%nat -> ~ drop j Patch.old `prefix_of` replacement.
Proof.
  intros Hj. apply startswith_false.
  assert (forallb (fun i => negb (startswith replacement (drop i Patch.old)))
                  (seq 1 26) = true) as Hall by (vm_compute; reflexivity).
  rewrite forallb_forall in Hall.
  apply negb_true_iff, Hall, in_seq.
  change (length Patch.old) with 27%nat in Hj. lia.
Qed.

(** What the script writes. When the run succeeds, the text read is
    [pre ++ old ++ mid ++ end_marker ++ rest], with [old] at the first
    offset where it occurs and [end_marker] at the first offset where it
    occurs from there on; the text written is [pre], the replacement less its
    final newline, then [end_marker] and [rest] as they were. So the anchor
    and everything up to the end marker are replaced, and the end marker and
    all that follows are kept. *)
Theorem main_rewrites_region (w : world) (text : str) :
  files w !! path = Some text ->
  (main w).1 = inr tt ->
  exists pre mid rest : str,
    text = pre ++ Patch.old ++ mid ++ end_marker ++ rest /\
    Z.of_nat (length pre) = find text Patch.old 0 /\
    Z.of_nat (length (pre ++ Patch.old ++ mid))
      = find text end_marker (find text Patch.old 0) /\
    files (main w).2 !! path
      = Some (pre ++ removelast replacement ++ end_marker ++ rest).
Proof.
  intros Hp. unfold main. rewrite patch_runs_replace, Hp.
  destruct (replace text Patch.old end_marker replacement) as [err|out] eqn:Hr;
    [done|]. intros _.
  destruct (splice_keeps_marker text Patch.old end_marker replacement out
              LF (lit "        } else {") (removelast replacement))
    as (pre & mid & rest & Htext & Hs & He & ->);
    [done | apply old_has_no_newline | apply replacement_ends_with_newline
    | done |].
  exists pre, mid, rest. split_and!; [done | done | done |].
  cbn [snd files]. by rewrite lookup_insert_eq.
Qed.

Lemma main_rewrites_region_witness :
  let text := lit "AAA" ++ Patch.old ++ lit "zzz" ++ end_marker ++ lit "BBB" in
  let w := World {[ path := text ]} [] in
  exists pre mid rest : str,
    text = pre ++ Patch.old ++ mid ++ end_marker ++ rest /\
    files (main w).2 !! path
      = Some (pre ++ removelast replacement ++ end_marker ++ rest).
Proof.
  intros text w.
  destruct (main_rewrites_region w text) as (pre & mid & rest & Ht & _ & _ & Hw);
    [reflexivity | reflexivity |].
  exists pre, mid, rest. split; [exact Ht | exact Hw].
Defined.

(** A second run. After a successful run, the anchor occurs in the text
    written only where it occurred in the original text after the end
    marker's offset, moved by the change of length; the occurrence that was
    found is gone and the replacement brings none. So when the original text
    has no anchor after the end marker's offset, a second run ends with
    [marker not found] and leaves the files as the first run left them. *)
Theorem second_run_after_success (w : world) (text out : str) :
  files w !! path = Some text ->
  replace text Patch.old end_marker replacement = inr out ->
  let s := find text Patch.old 0 in
  let e := find text end_marker s in
  files (main w).2 !! path = Some out /\
  (forall o, occurs_at out Patch.old o ->
     s + Z.of_nat (length replacement) <= o /\
     occurs_at text Patch.old (o - (s + Z.of_nat (length replacement)) + (e + 1))) /\
  ((forall o', e < o' -> ~ occurs_at text Patch.old o') ->
     (main (main w).2).1 = inl (SystemExit "marker not found") /\
     files (main (main w).2).2 = files (main w).2).
Proof.
  intros Hp Hr s e.
  assert (files (main w).2 !! path = Some out) as Hout.
  { unfold main. rewrite patch_runs_replace, Hp, Hr. cbn [snd files].
    by rewrite lookup_insert_eq. }
  pose proof Hr as Hr'. apply replace_inr_inv in Hr' as (Hs1 & He1 & _).
  destruct (offsets_ordered text Patch.old end_marker Hs1 He1) as (H0 & Hle & Hlen).
  destruct (find_found text Patch.old 0 _ ltac:(lia) eq_refl Hs1) as (_ & _ & Hmin).
  rewrite (replace_ok text Patch.old end_marker replacement _ _
             eq_refl Hs1 eq_refl He1) in Hr.
  apply (inj inr) in Hr. fold s in Hr, H0, Hle, Hlen, Hmin. fold e in Hr, Hle, Hlen.
  assert (forall o, occurs_at out Patch.old o ->
     s + Z.of_nat (length replacement) <= o /\
     occurs_at text Patch.old (o - (s + Z.of_nat (length replacement)) + (e + 1)))
    as Hocc.
  { intros o Ho. pose proof (occurs_at_to_nat _ _ _ Ho) as Hon.
    rewrite Hon in Ho. apply occurs_at_nat in Ho as [_ Hpre]. rewrite <- Hr in Hpre.
    assert (length (take (Z.to_nat s) text) = Z.to_nat s) as Hlpre
      by (rewrite length_take; lia).
    apply (block_brings_no_anchor _ _ _ _ LF (removelast replacement)) in Hpre
      as [[Hk Hpre]|[Hk Hpre]].
    - exfalso. apply (Hmin o).
      + change (length Patch.old) with 27%nat in Hk. lia.
      + rewrite Hon. apply occurs_at_nat. split; [lia|].
        rewrite <- (take_drop (Z.to_nat s) text) at 1.
        rewrite drop_app_le by lia. by apply prefix_app_r.
    - rewrite Hlpre in Hk, Hpre. rewrite drop_drop in Hpre.
      split; [lia|].
      replace (o - (s + Z.of_nat (length replacement)) + (e + 1))
        with (Z.of_nat (S (Z.to_nat e) +
                (Z.to_nat o - Z.to_nat s - length replacement))) by lia.
      apply occurs_at_nat. split; [|done].
      apply prefix_length in Hpre. rewrite length_drop in Hpre.
      change (length Patch.old) with 27%nat in Hpre. lia.
    - apply replacement_ends_with_newline.
    - apply old_has_no_newline.
    - done.
    - apply Nat.leb_le. vm_compute. reflexivity.
    - apply replacement_has_no_anchor.
    - apply no_anchor_end_starts_replacement. }
  split; [done|]. split; [done|].
  intros Hnone.
  assert (replace out Patch.old end_marker replacement = inl AnchorNotFound) as Hr2.
  { apply replace_anchor_not_found. intros o Ho.
    destruct (Hocc o Ho) as [Hge Ho']. eapply Hnone; [|exact Ho']. lia. }
  unfold main at 1 3. rewrite !patch_runs_replace, Hout, Hr2. done.
Qed.

Lemma second_run_after_success_witness :
  let text := lit "AAA" ++ Patch.old ++ lit "zzz" ++ end_marker ++ lit "BBB" in
  let w := World {[ path := text ]} [] in
  (main (main w).2).1 = inl (SystemExit "marker not found") /\
  files (main (main w).2).2 = files (main w).2.
Proof.
  intros text w.
  destruct (second_run_after_success w text
              (lit "AAA" ++ replacement ++ lit "        } else {BBB"))
    as (_ & _ & Hsecond); [reflexivity | vm_compute; reflexivity |].
  apply Hsecond. intros o' Ho' Hocc.
  assert (find text Patch.old 34 = -1) as Hf by (vm_compute; reflexivity).
  apply (find_not_found text Patch.old 34 ltac:(lia) Hf o'); [|exact Hocc].
  change (find text end_marker (find text Patch.old 0)) with 33 in Ho'. lia.
Defined.
